(** * Customer database: basic operations

    A shallow embedding of [basic_operations.py] (lesson03): the five
    operations [add_customer], [search_customer], [delete_customer],
    [update_customer_credit] and [list_active_customers] over one table of
    customers, keyed by [customer_id].

    The Python functions act on a database through the ORM and on the
    logging, warnings and standard-output channels.  They are embedded as
    computations in a state-and-exception monad [M] over a [World] that holds
    the rows of the table and the trace of emitted events. *)

From stdpp Require Import base strings list gmap.

(** ** Values and rows *)

(** A Python value stored in a column or handed to a log call. *)
Inductive value :=
  | VStr (s : string)
  | VNum (n : Z).

#[global] Instance value_eq_dec : EqDecision value.
Proof. solve_decision. Defined.

(** Modelled from the spec: [customer_model.Customer], the schema of the
    table, is imported by the module and is not part of the sources.  The
    spec's data model gives its columns: customer_id (primary key), name,
    last_name, home_address, phone_number, email_address, status (a string)
    and credit_limit (numeric). *)
Record Customer := mkCustomer {
  customer_id : string;
  name : string;
  last_name : string;
  home_address : string;
  phone_number : string;
  email_address : string;
  status : string;
  credit_limit : Z
}.

#[global] Instance Customer_eq_dec : EqDecision Customer.
Proof. solve_decision. Defined.

(** The primary-key column of a table, in row order. *)
Definition primary_keys (rows : list Customer) : list string :=
  customer_id <$> rows.

(** [customer.credit_limit = credit_limit] on a model instance. *)
Definition set_credit_limit (c : Customer) (limit : Z) : Customer :=
  mkCustomer (customer_id c) (name c) (last_name c) (home_address c)
             (phone_number c) (email_address c) (status c) limit.

(** ** Effects *)

Inductive exn :=
  | IntegrityError (msg : string)
  | OverflowError (msg : string)
  | ValueError.

Inductive level := INFO | WARNING.

Inductive category := UserWarning.

#[global] Instance level_eq_dec : EqDecision level.
Proof. solve_decision. Defined.

#[global] Instance category_eq_dec : EqDecision category.
Proof. solve_decision. Defined.

(** What a call lets out besides its result: a call on [LOGGER] (format
    string and its lazy argument), a line on standard output, a call of
    [warnings.warn]. *)
Inductive event :=
  | Logged (lv : level) (fmt : string) (arg : value)
  | Printed (line : string)
  | Warned (msg : string) (cat : category).

#[global] Instance event_eq_dec : EqDecision event.
Proof. solve_decision. Defined.

Record World := mkWorld {
  table : list Customer;
  trace : list event
}.

Inductive result (A : Type) :=
  | Return (a : A)
  | Raise (e : exn).
Arguments Return {A} a.
Arguments Raise {A} e.

Definition M (A : Type) : Type := World → result A * World.

#[global] Instance M_ret : MRet M := λ A a w, (Return a, w).

#[global] Instance M_bind : MBind M := λ A B k c w,
  match c w with
  | (Return a, w') => k a w'
  | (Raise e, w') => (Raise e, w')
  end.

Definition raise {A} (e : exn) : M A := λ w, (Raise e, w).

(** [try: body except handler]: [handler e = None] when no clause matches
    [e], which then propagates. *)
Definition try_except {A} (body : M A) (handler : exn → option (M A)) : M A :=
  λ w,
    match body w with
    | (Return a, w') => (Return a, w')
    | (Raise e, w') =>
        match handler e with
        | Some h => h w'
        | None => (Raise e, w')
        end
    end.

Definition get_table : M (list Customer) := λ w, (Return (table w), w).

Definition put_table (rows : list Customer) : M unit :=
  λ w, (Return (), mkWorld rows (trace w)).

Definition emit (ev : event) : M unit :=
  λ w, (Return (), mkWorld (table w) (trace w ++ [ev])).

(** The outcome of a call, the world it leaves, and the events it let out. *)
Definition result_of {A} (c : M A) (w : World) : result A := (c w).1.
Definition world_after {A} (c : M A) (w : World) : World := (c w).2.
Definition emitted {A} (c : M A) (w : World) : list event :=
  drop (length (trace w)) (trace (world_after c w)).

(** ** The collaborators: database, ORM, logging *)

(** The module reaches the database through the methods that [Customer]
    inherits from the ORM's [Model] class.  Each is embedded by the one SQL
    statement it issues, run on the table as a list of rows in insertion
    order, with [customer_id] as primary key (the docstring of
    [add_customer]: "Customer ID is used as the primary key"). *)

(** [with database.atomic():] commits when the block ends normally and rolls
    the table back when an exception leaves the block. *)
Definition atomic {A} (body : M A) : M A :=
  λ w,
    match body w with
    | (Return a, w') => (Return a, w')
    | (Raise e, w') => (Raise e, mkWorld (table w) (trace w'))
    end.

(** Modelled from the spec: the name of the table, "customers", is the one
    the spec's external interface gives; the schema itself is not part of the
    sources. *)
Definition unique_failed : string :=
  "UNIQUE constraint failed: customers.customer_id".

(** The store is sqlite3 (the module's docstring): an integer it holds is a
    signed 64-bit one, and binding a Python int outside that range as a
    statement parameter raises [OverflowError]. *)
Definition storable (n : Z) : Prop := (- 2 ^ 63 ≤ n < 2 ^ 63)%Z.

#[global] Instance storable_dec (n : Z) : Decision (storable n).
Proof. unfold storable. apply _. Defined.

Definition int_too_large : string :=
  "Python int too large to convert to SQLite INTEGER".

(** [Customer.create(...)]: INSERT of one row.  The parameters are bound
    first, which fails on a credit limit the store cannot hold; then the
    primary key refuses a second row with a key already in the table. *)
Definition Customer_create (row : Customer) : M Customer :=
  if decide (storable (credit_limit row))
  then
    rows ← get_table;
    if decide (customer_id row ∈ primary_keys rows)
    then raise (IntegrityError unique_failed)
    else (put_table (rows ++ [row]);; mret row)
  else raise (OverflowError int_too_large).

(** [instance.save()] on an instance whose key is set: UPDATE of every
    other column WHERE customer_id is the instance's; gives the number of
    rows matched.  Binding a credit limit the store cannot hold fails, and
    the table is left as it was. *)
Definition Customer_save (inst : Customer) : M nat :=
  if decide (storable (credit_limit inst))
  then
    rows ← get_table;
    put_table ((λ r, if decide (customer_id r = customer_id inst) then inst else r) <$> rows);;
    mret (length (filter (λ r, customer_id r = customer_id inst) rows))
  else raise (OverflowError int_too_large).

(** [Customer.get_or_none(Customer.customer_id == cid)]: the first row with
    that key, if any. *)
Definition Customer_get_or_none (cid : string) : M (option Customer) :=
  rows ← get_table;
  mret (head (filter (λ r, customer_id r = cid) rows)).

(** [Customer.delete().where(Customer.customer_id == cid).execute()]: removes
    the matching rows and gives their number. *)
Definition Customer_delete_where (cid : string) : M nat :=
  rows ← get_table;
  put_table (filter (λ r, customer_id r ≠ cid) rows);;
  mret (length (filter (λ r, customer_id r = cid) rows)).

(** [Customer.select().where(Customer.status == st)]. *)
Definition Customer_select_where_status (st : string) : M (list Customer) :=
  rows ← get_table;
  mret (filter (λ r, status r = st) rows).

Definition LOGGER_info (fmt : string) (arg : value) : M unit :=
  emit (Logged INFO fmt arg).
Definition LOGGER_warning (fmt : string) (arg : value) : M unit :=
  emit (Logged WARNING fmt arg).
Definition print (line : string) : M unit := emit (Printed line).
Definition warnings_warn (msg : string) (cat : category) : M unit :=
  emit (Warned msg cat).

(** ** The five operations *)

Definition add_customer (customer_id name last_name home_address phone_number
    email_address status : string) (credit_limit : Z) : M unit :=
  atomic (
    try_except
      (new_customer ← Customer_create
         (mkCustomer customer_id name last_name home_address phone_number
                     email_address status credit_limit);
       Customer_save new_customer;;
       LOGGER_info "New Customer: %s, created and saved to the database."
                   (VStr customer_id))
      (λ e, match e with
            | IntegrityError err =>
                Some (print err;;
                      LOGGER_warning "Error, could not add customer %s."
                                     (VStr customer_id))
            | _ => None
            end)).

(** The dictionary [search_customer] builds from a row. *)
Definition customer_dict (customer : Customer) : gmap string value :=
  {[ "customer_id" := VStr (customer_id customer);
     "name" := VStr (name customer);
     "last_name" := VStr (last_name customer);
     "home_address" := VStr (home_address customer);
     "phone_number" := VStr (phone_number customer);
     "email_address" := VStr (email_address customer);
     "status" := VStr (status customer);
     "credit_limit" := VNum (credit_limit customer) ]}.

Definition search_customer (customer_id : string) : M (gmap string value) :=
  customer ← Customer_get_or_none customer_id;
  match customer with
  | Some customer => mret (customer_dict customer)
  | None => mret ∅
  end.

Definition not_in_database (customer_id : string) : string :=
  "User with customer_id=" +:+ customer_id +:+ " does not exist in the database.".

Definition delete_customer (customer_id : string) : M unit :=
  query ← Customer_delete_where customer_id;
  if decide (query = 0)
  then warnings_warn (not_in_database customer_id) UserWarning
  else mret ().

Definition update_customer_credit (customer_id : string) (credit_limit : Z) : M unit :=
  customer ← Customer_get_or_none customer_id;
  match customer with
  | Some customer =>
      LOGGER_info "Updating credit limit for customer with id: %s" (VStr customer_id);;
      Customer_save (set_credit_limit customer credit_limit);;
      mret ()
  | None => raise ValueError
  end.

Definition list_active_customers : M nat :=
  query ← Customer_select_where_status "Active";
  let active_customers := length query in
  LOGGER_info "Number of active customers: %s" (VNum (Z.of_nat active_customers));;
  mret active_customers.

(** ** Sequences of calls *)

(** One call of the interface, as a caller issues it. *)
Inductive op :=
  | OpAdd (customer_id name last_name home_address phone_number
           email_address status : string) (credit_limit : Z)
  | OpSearch (customer_id : string)
  | OpDelete (customer_id : string)
  | OpUpdate (customer_id : string) (credit_limit : Z)
  | OpList.

Definition run_op (o : op) : M unit :=
  match o with
  | OpAdd cid nm ln addr ph em st cl => add_customer cid nm ln addr ph em st cl
  | OpSearch cid => search_customer cid;; mret ()
  | OpDelete cid => delete_customer cid
  | OpUpdate cid cl => update_customer_credit cid cl
  | OpList => list_active_customers;; mret ()
  end.

(** The caller goes on after a call that raised: the world is the one the
    call left behind. *)
Fixpoint run_ops (os : list op) (w : World) : World :=
  match os with
  | [] => w
  | o :: os' => run_ops os' (world_after (run_op o) w)
  end.




Definition is_warning (ev : event) : bool :=
  match ev with
  | Warned _ _ => true
  | _ => false
  end.

(** ** A small database to run the operations on *)

Definition alice : Customer :=
  mkCustomer "C001" "Alice" "Moreau" "12 Quay Street" "555-0101"
             "alice@example.org" "Active" 1200.

Definition bruno : Customer :=
  mkCustomer "C002" "Bruno" "Keller" "4 Mill Lane" "555-0102"
             "bruno@example.org" "Inactive" 300.

Definition two_customers : World := mkWorld [alice; bruno] [].


(** The first credit limit above the store's range. *)
Definition too_large : Z := 2 ^ 63.

(** ** Proof steps *)

(** Closes a decidable goal about concrete data by evaluating its decision
    procedure. *)
Ltac by_compute :=
  apply (bool_decide_unpack _); vm_compute; exact I.

(** Unfolds the monad down to the world it threads. *)
Ltac run_monad :=
  unfold result_of, world_after, mbind, M_bind, mret, M_ret, raise,
    get_table, put_table, emit; simpl.

(** * Properties *)

(** ** Rows and keys *)

Section rows.
Implicit Types (rows : list Customer) (cid : string) (c : Customer).

Lemma primary_keys_app rows1 rows2 :
  primary_keys (rows1 ++ rows2) = primary_keys rows1 ++ primary_keys rows2.
Proof. apply fmap_app. Qed.

Lemma key_of_row rows c : c ∈ rows → customer_id c ∈ primary_keys rows.
Proof. intros Hc. apply list_elem_of_fmap. by exists c. Qed.

Lemma row_of_key rows cid :
  cid ∈ primary_keys rows → ∃ c, c ∈ rows ∧ customer_id c = cid.
Proof.
  intros (c & -> & Hc)%list_elem_of_fmap. by exists c.
Qed.

Lemma where_key_absent rows cid :
  cid ∉ primary_keys rows → filter (λ r, customer_id r = cid) rows = [].
Proof.
  intros Habs. induction rows as [|r rows IH]; [done|].
  rewrite filter_cons. case_decide as Hr.
  - exfalso. apply Habs. subst cid. apply key_of_row. left.
  - apply IH. intros Hin. apply Habs. unfold primary_keys.
    rewrite fmap_cons. by right.
Qed.

Lemma where_key_present rows cid :
  cid ∈ primary_keys rows →
  ∃ c rest, filter (λ r, customer_id r = cid) rows = c :: rest.
Proof.
  intros (c & Hc & Hid)%row_of_key.
  assert (c ∈ filter (λ r, customer_id r = cid) rows) as Hin
    by (by apply list_elem_of_filter).
  destruct (filter _ rows) as [|c' rest]; [by inversion Hin|eauto].
Qed.

Lemma where_other_absent rows cid :
  cid ∉ primary_keys rows → filter (λ r, customer_id r ≠ cid) rows = rows.
Proof.
  intros Habs. induction rows as [|r rows IH]; [done|].
  rewrite filter_cons. case_decide as Hr.
  - f_equal. apply IH. intros Hin. apply Habs. unfold primary_keys.
    rewrite fmap_cons. by right.
  - exfalso. apply Habs. subst cid.
    apply key_of_row. left.
Qed.

Lemma where_other_keys rows cid :
  primary_keys (filter (λ r, customer_id r ≠ cid) rows)
  = filter (λ k, k ≠ cid) (primary_keys rows).
Proof.
  induction rows as [|r rows IH]; [done|].
  unfold primary_keys in *. rewrite fmap_cons, !filter_cons.
  case_decide; [rewrite fmap_cons|]; by rewrite IH.
Qed.

(** An UPDATE never touches the key column. *)
Lemma update_keys rows cid c :
  customer_id c = cid →
  primary_keys ((λ r, if decide (customer_id r = cid) then c else r) <$> rows)
  = primary_keys rows.
Proof.
  intros Hc. unfold primary_keys. rewrite <- list_fmap_compose.
  apply list_fmap_ext. intros _ r _. simpl. case_decide; congruence.
Qed.

Lemma update_where_key rows cid c :
  customer_id c = cid →
  filter (λ r, customer_id r = cid)
         ((λ r, if decide (customer_id r = cid) then c else r) <$> rows)
  = (λ _, c) <$> filter (λ r, customer_id r = cid) rows.
Proof.
  intros Hc. induction rows as [|r rows IH]; [done|].
  rewrite fmap_cons, !filter_cons. destruct (decide (customer_id r = cid)).
  - rewrite decide_True by done. rewrite fmap_cons. by rewrite IH.
  - by rewrite decide_False.
Qed.

Lemma update_where_other rows cid cid' c :
  customer_id c = cid → cid' ≠ cid →
  filter (λ r, customer_id r = cid')
         ((λ r, if decide (customer_id r = cid) then c else r) <$> rows)
  = filter (λ r, customer_id r = cid') rows.
Proof.
  intros Hc Hne. induction rows as [|r rows IH]; [done|].
  rewrite fmap_cons, !filter_cons. destruct (decide (customer_id r = cid)).
  - rewrite !decide_False by congruence. done.
  - destruct (decide (customer_id r = cid')); by rewrite IH.
Qed.

(** With a unique key, the first row with a row's key is that row. *)
Lemma where_key_unique rows c :
  NoDup (primary_keys rows) → c ∈ rows →
  filter (λ r, customer_id r = customer_id c) rows = [c].
Proof.
  induction rows as [|r rows IH]; intros Hnd Hc; [by inversion Hc|].
  unfold primary_keys in Hnd. rewrite fmap_cons in Hnd.
  apply NoDup_cons in Hnd as [Hr Hnd].
  rewrite filter_cons. apply elem_of_cons in Hc as [->|Hc].
  - rewrite decide_True by done. f_equal. by apply where_key_absent.
  - rewrite decide_False; [by apply IH|].
    intros Heq. apply Hr. rewrite Heq. by apply key_of_row.
Qed.


Lemma update_absent rows c :
  customer_id c ∉ primary_keys rows →
  (λ r, if decide (customer_id r = customer_id c) then c else r) <$> rows = rows.
Proof.
  intros Habs. rewrite <- (list_fmap_id rows) at 2.
  apply list_fmap_ext. intros _ r Hr%list_elem_of_lookup_2. simpl.
  case_decide as Hid; [|done].
  exfalso. apply Habs. rewrite <- Hid. by apply key_of_row.
Qed.
End rows.

(** ** What each operation does to the world *)

Section operations.
Implicit Types (w : World) (cid nm ln addr ph em st : string) (cl : Z).

Lemma add_customer_fresh w cid nm ln addr ph em st cl :
  storable cl →
  cid ∉ primary_keys (table w) →
  add_customer cid nm ln addr ph em st cl w
  = (Return (),
     mkWorld (table w ++ [mkCustomer cid nm ln addr ph em st cl])
             (trace w ++ [Logged INFO
                "New Customer: %s, created and saved to the database."
                (VStr cid)])).
Proof.
  intros Hst Habs.
  unfold add_customer, atomic, try_except, Customer_create, Customer_save,
    LOGGER_info.
  run_monad. rewrite (decide_True (P := storable cl)) by done. simpl.
  rewrite (decide_False (P := cid ∈ primary_keys (table w))) by done. simpl.
  rewrite (decide_True (P := storable cl)) by done. simpl.
  do 2 f_equal. rewrite fmap_app. simpl.
  rewrite decide_True by done. f_equal.
  by apply (update_absent _ (mkCustomer cid nm ln addr ph em st cl)).
Qed.

Lemma add_customer_duplicate w cid nm ln addr ph em st cl :
  storable cl →
  cid ∈ primary_keys (table w) →
  add_customer cid nm ln addr ph em st cl w
  = (Return (),
     mkWorld (table w)
             (trace w ++ [Printed unique_failed]
                      ++ [Logged WARNING "Error, could not add customer %s."
                                 (VStr cid)])).
Proof.
  intros Hst Hin.
  unfold add_customer, atomic, try_except, Customer_create, print,
    LOGGER_warning.
  run_monad. rewrite (decide_True (P := storable cl)) by done. simpl.
  rewrite (decide_True (P := cid ∈ primary_keys (table w))) by done. simpl.
  by rewrite <- (assoc_L (++)).
Qed.

(** A credit limit the store cannot hold: the error leaves the [try] block,
    whose clause is for integrity errors, and the [atomic] block; nothing was
    written and nothing logged. *)
Lemma add_customer_overflow w cid nm ln addr ph em st cl :
  ¬ storable cl →
  add_customer cid nm ln addr ph em st cl w
  = (Raise (OverflowError int_too_large), w).
Proof.
  intros Hst.
  unfold add_customer, atomic, try_except, Customer_create.
  run_monad. rewrite (decide_False (P := storable cl)) by done. simpl.
  by destruct w.
Qed.

Lemma search_customer_run w cid :
  search_customer cid w
  = (Return (match head (filter (λ r, customer_id r = cid) (table w)) with
             | Some c => customer_dict c
             | None => ∅
             end), w).
Proof.
  unfold search_customer, Customer_get_or_none. run_monad.
  by destruct (head _).
Qed.

Lemma delete_customer_table w cid :
  table (world_after (delete_customer cid) w)
  = filter (λ r, customer_id r ≠ cid) (table w).
Proof.
  unfold delete_customer, Customer_delete_where, warnings_warn. run_monad.
  by case_decide.
Qed.


Lemma delete_customer_present w cid :
  cid ∈ primary_keys (table w) →
  delete_customer cid w
  = (Return (),
     mkWorld (filter (λ r, customer_id r ≠ cid) (table w)) (trace w)).
Proof.
  intros (c & rest & Hf)%where_key_present.
  unfold delete_customer, Customer_delete_where, warnings_warn. run_monad.
  rewrite Hf. simpl. by destruct w.
Qed.

Lemma update_customer_credit_absent w cid cl :
  cid ∉ primary_keys (table w) →
  update_customer_credit cid cl w = (Raise ValueError, w).
Proof.
  intros Habs. unfold update_customer_credit, Customer_get_or_none.
  run_monad. by rewrite where_key_absent.
Qed.

Lemma update_customer_credit_present w cid cl c :
  storable cl →
  head (filter (λ r, customer_id r = cid) (table w)) = Some c →
  update_customer_credit cid cl w
  = (Return (),
     mkWorld ((λ r, if decide (customer_id r = cid)
                    then set_credit_limit c cl else r) <$> table w)
             (trace w ++ [Logged INFO
                "Updating credit limit for customer with id: %s" (VStr cid)])).
Proof.
  intros Hst Hc.
  assert (customer_id c = cid) as Hid.
  { apply head_Some_elem_of in Hc. by apply list_elem_of_filter in Hc as [? _]. }
  unfold update_customer_credit, Customer_get_or_none, Customer_save,
    LOGGER_info.
  run_monad. rewrite Hc. simpl.
  rewrite (decide_True (P := storable cl)) by done. simpl. by rewrite Hid.
Qed.

(** A credit limit the store cannot hold, for an id that some record has:
    the info call has been made when [save()] fails, and the table is left
    as it was. *)
Lemma update_customer_credit_overflow w cid cl c :
  ¬ storable cl →
  head (filter (λ r, customer_id r = cid) (table w)) = Some c →
  update_customer_credit cid cl w
  = (Raise (OverflowError int_too_large),
     mkWorld (table w)
             (trace w ++ [Logged INFO
                "Updating credit limit for customer with id: %s" (VStr cid)])).
Proof.
  intros Hst Hc.
  unfold update_customer_credit, Customer_get_or_none, Customer_save,
    LOGGER_info.
  run_monad. rewrite Hc. simpl.
  by rewrite (decide_False (P := storable cl)).
Qed.

Lemma list_active_customers_run w :
  list_active_customers w
  = (Return (length (filter (λ r, status r = "Active") (table w))),
     mkWorld (table w)
             (trace w ++ [Logged INFO "Number of active customers: %s"
                (VNum (Z.of_nat (length (filter (λ r, status r = "Active")
                                                (table w)))))])).
Proof. done. Qed.
End operations.

(** ** The operations, one by one *)











(** C5: for an id that no record has, [update_customer_credit] raises
    [ValueError] and leaves the world as it was; and the call raises
    [ValueError] exactly when no record has the id. *)
Theorem update_customer_credit_absent_raises (w : World) (cid : string) (cl : Z) :
  (cid ∉ primary_keys (table w) →
   result_of (update_customer_credit cid cl) w = Raise ValueError ∧
   world_after (update_customer_credit cid cl) w = w) ∧
  (result_of (update_customer_credit cid cl) w = Raise ValueError ↔
   cid ∉ primary_keys (table w)).
Proof.
  assert (cid ∉ primary_keys (table w) →
          update_customer_credit cid cl w = (Raise ValueError, w)) as Habs
    by apply update_customer_credit_absent.
  unfold result_of, world_after. split; [|split].
  - intros H. by rewrite Habs.
  - intros Hraise Hin.
    apply where_key_present in Hin as (c & rest & Hf).
    assert (head (filter (λ r, customer_id r = cid) (table w)) = Some c) as Hc
      by (by rewrite Hf).
    destruct (decide (storable cl)) as [Hst|Hst].
    + by rewrite (update_customer_credit_present _ _ _ c) in Hraise.
    + by rewrite (update_customer_credit_overflow _ _ _ c) in Hraise.
  - intros H. by rewrite Habs.
Qed.

Lemma update_customer_credit_absent_raises_witness :
  result_of (update_customer_credit "C009" 900) two_customers = Raise ValueError ∧
  world_after (update_customer_credit "C009" 900) two_customers = two_customers.
Proof.
  apply (update_customer_credit_absent_raises two_customers "C009" 900).
  by_compute.
Defined.

(** ** Counting, updating, and the key invariant *)





(** C7 (as amended): when the database returns a record for the given id,
    [update_customer_credit] with that id and a new limit that the store can
    hold returns normally; afterwards the record returned for the id has the
    new limit as its credit_limit and the same customer_id, name, last_name,
    home_address, phone_number, email_address and status as before, and the
    record returned for any other id is the one returned before. *)
Theorem update_customer_credit_sets_limit (w : World) (cid : string) (cl : Z) (c : Customer) :
  storable cl →
  result_of (Customer_get_or_none cid) w = Return (Some c) →
  result_of (update_customer_credit cid cl) w = Return () ∧
  result_of (Customer_get_or_none cid)
            (world_after (update_customer_credit cid cl) w)
  = Return (Some (mkCustomer (customer_id c) (name c) (last_name c)
                             (home_address c) (phone_number c)
                             (email_address c) (status c) cl)) ∧
  ∀ cid', cid' ≠ cid →
    result_of (Customer_get_or_none cid')
              (world_after (update_customer_credit cid cl) w)
    = result_of (Customer_get_or_none cid') w.
Proof.
  intros Hst.
  unfold result_of at 1. unfold Customer_get_or_none at 1. run_monad.
  intros [= Hc].
  assert (customer_id c = cid) as Hid.
  { apply head_Some_elem_of in Hc. by apply list_elem_of_filter in Hc as [? _]. }
  unfold result_of, world_after.
  rewrite (update_customer_credit_present _ _ _ c) by done.
  unfold Customer_get_or_none. run_monad. split; [done|]. split.
  - rewrite update_where_key by done.
    destruct (filter _ (table w)) as [|c0 rest]; [done|]. simpl in *.
    by simplify_eq.
  - intros cid' Hne. by rewrite update_where_other.
Qed.

Lemma update_customer_credit_sets_limit_witness :
  result_of (update_customer_credit "C002" 900) two_customers = Return () ∧
  result_of (Customer_get_or_none "C002")
            (world_after (update_customer_credit "C002" 900) two_customers)
  = Return (Some (mkCustomer "C002" "Bruno" "Keller" "4 Mill Lane" "555-0102"
                             "bruno@example.org" "Inactive" 900)) ∧
  result_of (Customer_get_or_none "C001")
            (world_after (update_customer_credit "C002" 900) two_customers)
  = Return (Some alice).
Proof.
  destruct (update_customer_credit_sets_limit two_customers "C002" 900 bruno)
    as (Hret & Hnew & Hframe).
  - by_compute.
  - reflexivity.
  - split; [exact Hret|]. split; [exact Hnew|].
    rewrite (Hframe "C001") by (by_compute). reflexivity.
Defined.

(** C7 as first stated fails: for the id "C002", which a record has, and the
    new limit 2^63, [update_customer_credit] raises [OverflowError] and the
    record keeps the limit it had. *)
Lemma update_customer_credit_sets_limit_counterexample :
  result_of (Customer_get_or_none "C002") two_customers = Return (Some bruno) ∧
  result_of (update_customer_credit "C002" too_large) two_customers
  = Raise (OverflowError int_too_large) ∧
  result_of (Customer_get_or_none "C002")
            (world_after (update_customer_credit "C002" too_large) two_customers)
  = Return (Some bruno) ∧
  credit_limit bruno ≠ too_large.
Proof.
  do 3 (split; [reflexivity|]). vm_compute. discriminate.
Qed.

Lemma run_op_unique (o : op) (w : World) :
  NoDup (primary_keys (table w)) →
  NoDup (primary_keys (table (world_after (run_op o) w))).
Proof.
  intros Hnd.
  destruct o as [cid nm ln addr ph em st cl|cid|cid|cid cl|]; simpl.
  - unfold world_after. destruct (decide (storable cl)) as [Hst|Hst];
      [|by rewrite add_customer_overflow].
    destruct (decide (cid ∈ primary_keys (table w))).
    + by rewrite add_customer_duplicate.
    + rewrite add_customer_fresh by done. simpl.
      rewrite primary_keys_app. apply NoDup_app. split; [done|]. split.
      * intros k Hk ->%list_elem_of_singleton. done.
      * apply NoDup_singleton.
  - unfold world_after. run_monad. by rewrite search_customer_run.
  - rewrite delete_customer_table, where_other_keys. by apply NoDup_filter.
  - unfold world_after. destruct (decide (cid ∈ primary_keys (table w))) as [Hin|].
    + apply where_key_present in Hin as (c & rest & Hf).
      assert (head (filter (λ r, customer_id r = cid) (table w)) = Some c)
        as Hc by (by rewrite Hf).
      destruct (decide (storable cl)) as [Hst|Hst];
        [|by rewrite (update_customer_credit_overflow _ _ _ c)].
      rewrite (update_customer_credit_present _ _ _ c) by done.
      simpl. rewrite update_keys; [done|].
      by apply head_Some_elem_of, list_elem_of_filter in Hc as [? _].
    + by rewrite update_customer_credit_absent.
  - unfold world_after. run_monad. done.
Qed.

(** C8: if customer_id is unique across the rows of the table, it is still
    unique after any sequence of calls of the five operations, with any
    arguments. *)
Theorem customer_id_stays_unique (os : list op) (w : World) :
  NoDup (primary_keys (table w)) →
  NoDup (primary_keys (table (run_ops os w))).
Proof.
  revert w. induction os as [|o os IH]; intros w Hnd; simpl; [done|].
  apply IH. by apply run_op_unique.
Qed.

Lemma customer_id_stays_unique_witness :
  NoDup (primary_keys (table (run_ops
    [OpAdd "C001" "Alia" "Moro" "1 New Street" "555-0199" "alia@example.org"
           "Inactive" 5;
     OpAdd "C003" "Chloe" "Adler" "9 Hill Road" "555-0103" "chloe@example.org"
           "Active" 750;
     OpUpdate "C003" 20; OpUpdate "C009" 20; OpSearch "C001";
     OpDelete "C002"; OpDelete "C002"; OpList]
    two_customers))).
Proof.
  apply customer_id_stays_unique. by_compute.
Defined.

(** C9: [search_customer] and [list_active_customers] leave the table as it
    was, whatever the world and the id; [search_customer] leaves the whole
    world as it was. *)
Theorem queries_leave_table (w : World) (cid : string) :
  table (world_after (search_customer cid) w) = table w ∧
  world_after (search_customer cid) w = w ∧
  table (world_after list_active_customers w) = table w.
Proof.
  unfold world_after.
  by rewrite search_customer_run, list_active_customers_run.
Qed.



(** ** How the operations compose *)

Section more_rows.
Implicit Types (rows : list Customer) (cid : string) (c : Customer).


Lemma where_other_deleted rows cid cid' :
  cid' ≠ cid →
  filter (λ r, customer_id r = cid') (filter (λ r, customer_id r ≠ cid) rows)
  = filter (λ r, customer_id r = cid') rows.
Proof.
  intros Hne. induction rows as [|r rows IH]; [done|].
  rewrite !filter_cons. destruct (decide (customer_id r = cid')) as [Heq|Hneq].
  - rewrite decide_True by congruence. rewrite filter_cons.
    rewrite decide_True by done. by rewrite IH.
  - case_decide; [|done]. rewrite filter_cons. by rewrite decide_False.
Qed.

End more_rows.

Lemma add_customer_table (w : World) (cid nm ln addr ph em st : string) (cl : Z) :
  table (world_after (add_customer cid nm ln addr ph em st cl) w)
  = if decide (storable cl ∧ cid ∉ primary_keys (table w))
    then table w ++ [mkCustomer cid nm ln addr ph em st cl]
    else table w.
Proof.
  unfold world_after. destruct (decide (storable cl)) as [Hst|Hst].
  - destruct (decide (cid ∈ primary_keys (table w))) as [Hin|Habs].
    + rewrite add_customer_duplicate, decide_False by tauto. done.
    + rewrite add_customer_fresh, decide_True by tauto. done.
  - rewrite add_customer_overflow, decide_False by tauto. done.
Qed.



(** Adding under one id does not change what [search_customer] returns for
    any other id, whether the add inserts a row or is refused. *)
Theorem add_customer_other_ids (w : World) (cid nm ln addr ph em st : string) (cl : Z)
    (cid' : string) :
  cid' ≠ cid →
  result_of (search_customer cid')
            (world_after (add_customer cid nm ln addr ph em st cl) w)
  = result_of (search_customer cid') w.
Proof.
  intros Hne. unfold result_of. rewrite !search_customer_run. simpl.
  rewrite add_customer_table. case_decide; [|done].
  rewrite filter_app, filter_cons, decide_False by (simpl; congruence).
  by rewrite filter_nil, app_nil_r.
Qed.

Lemma add_customer_other_ids_witness :
  result_of (search_customer "C002")
            (world_after (add_customer "C003" "Chloe" "Adler" "9 Hill Road"
                            "555-0103" "chloe@example.org" "Active" 750)
                         two_customers)
  = result_of (search_customer "C002") two_customers.
Proof.
  apply (add_customer_other_ids two_customers). by_compute.
Defined.


(** Deleting one id does not change what [search_customer] returns for any
    other id. *)
Theorem delete_customer_other_ids (w : World) (cid cid' : string) :
  cid' ≠ cid →
  result_of (search_customer cid') (world_after (delete_customer cid) w)
  = result_of (search_customer cid') w.
Proof.
  intros Hne. unfold result_of. rewrite !search_customer_run. simpl.
  by rewrite delete_customer_table, where_other_deleted.
Qed.

Lemma delete_customer_other_ids_witness :
  result_of (search_customer "C002")
            (world_after (delete_customer "C001") two_customers)
  = result_of (search_customer "C002") two_customers.
Proof.
  apply (delete_customer_other_ids two_customers). by_compute.
Defined.




(** ** Updates and the other columns *)

Lemma update_customer_credit_table (w : World) (cid : string) (cl : Z) :
  table (world_after (update_customer_credit cid cl) w)
  = match head (filter (λ r, customer_id r = cid) (table w)) with
    | Some c => if decide (storable cl)
                then (λ r, if decide (customer_id r = cid)
                           then set_credit_limit c cl else r) <$> table w
                else table w
    | None => table w
    end.
Proof.
  unfold world_after.
  destruct (head (filter _ (table w))) as [c|] eqn:Hc.
  - case_decide.
    + by rewrite (update_customer_credit_present _ _ _ c).
    + by rewrite (update_customer_credit_overflow _ _ _ c).
  - rewrite update_customer_credit_absent; [done|].
    intros (c & rest & Hf)%where_key_present. by rewrite Hf in Hc.
Qed.

Lemma first_with_key (rows : list Customer) (cid : string) (c : Customer) :
  head (filter (λ r, customer_id r = cid) rows) = Some c →
  c ∈ rows ∧ customer_id c = cid.
Proof.
  intros Hc%head_Some_elem_of. by apply list_elem_of_filter in Hc as [? ?].
Qed.

(** With unique ids an update rewrites each row from its own fields. *)
Lemma update_unique_rows (rows : list Customer) (cid : string) (cl : Z) (c : Customer) :
  NoDup (primary_keys rows) →
  head (filter (λ r, customer_id r = cid) rows) = Some c →
  (λ r, if decide (customer_id r = cid) then set_credit_limit c cl else r) <$> rows
  = (λ r, if decide (customer_id r = cid) then set_credit_limit r cl else r) <$> rows.
Proof.
  intros Hnd Hc. apply list_fmap_ext. intros _ r Hr%list_elem_of_lookup_2. simpl.
  case_decide as Hid; [|done]. subst cid.
  rewrite where_key_unique in Hc by done. simpl in Hc. by simplify_eq.
Qed.

Lemma update_own_status (rows : list Customer) (cid st : string) (cl : Z) :
  length (filter (λ r, status r = st)
            ((λ r, if decide (customer_id r = cid)
                   then set_credit_limit r cl else r) <$> rows))
  = length (filter (λ r, status r = st) rows).
Proof.
  induction rows as [|r rows IH]; [done|].
  rewrite fmap_cons, !filter_cons.
  destruct (decide (customer_id r = cid)); simpl;
    case_decide; simpl; by rewrite IH.
Qed.

(** [update_customer_credit] never adds, removes, reorders or re-keys a
    record: the column of ids is the same after the call, whether it
    returned or raised. *)
Theorem update_customer_credit_keeps_ids (w : World) (cid : string) (cl : Z) :
  primary_keys (table (world_after (update_customer_credit cid cl) w))
  = primary_keys (table w).
Proof.
  rewrite update_customer_credit_table.
  destruct (head _) as [c|] eqn:Hc; [|done]. case_decide; [|done].
  apply first_with_key in Hc as [_ Hid]. by apply update_keys.
Qed.

(** Of two updates of the same id in a row the last one wins, when its
    limit is one the store can hold: the table is the one the second update
    alone would have left, whatever the first limit was. *)
Theorem update_customer_credit_twice (w : World) (cid : string) (cl1 cl2 : Z) :
  storable cl2 →
  table (world_after (update_customer_credit cid cl2)
           (world_after (update_customer_credit cid cl1) w))
  = table (world_after (update_customer_credit cid cl2) w).
Proof.
  intros Hst2. rewrite !update_customer_credit_table.
  destruct (head (filter _ (table w))) as [c|] eqn:Hc; [|by rewrite Hc].
  destruct (decide (storable cl1)) as [Hst1|Hst1]; [|by rewrite Hc].
  pose proof (first_with_key _ _ _ Hc) as [_ Hid].
  rewrite update_where_key by done.
  destruct (filter _ (table w)) as [|c0 rest]; [done|]. simpl.
  rewrite !(decide_True (P := storable cl2)) by done.
  rewrite <- list_fmap_compose. apply list_fmap_ext. intros _ r _. simpl.
  destruct (decide (customer_id r = cid)).
  - by rewrite decide_True.
  - by rewrite decide_False.
Qed.

Lemma update_customer_credit_twice_witness :
  table (world_after (update_customer_credit "C001" 70)
           (world_after (update_customer_credit "C001" too_large) two_customers))
  = table (world_after (update_customer_credit "C001" 70) two_customers).
Proof.
  apply (update_customer_credit_twice two_customers). by_compute.
Defined.

(** After an update with a limit the store can hold, of an id that some
    record has, [search_customer] returns the dictionary it returned before
    with the new limit under "credit_limit", and nothing else changed. *)
Theorem update_then_search (w : World) (cid : string) (cl : Z) :
  storable cl →
  cid ∈ primary_keys (table w) →
  ∃ d, result_of (search_customer cid) w = Return d ∧
       result_of (search_customer cid)
                 (world_after (update_customer_credit cid cl) w)
       = Return (<["credit_limit" := VNum cl]> d).
Proof.
  intros Hst (c & rest & Hf)%where_key_present.
  assert (customer_id c = cid) as Hid.
  { apply (first_with_key (table w)). by rewrite Hf. }
  exists (customer_dict c). unfold result_of.
  rewrite !search_customer_run. simpl.
  rewrite update_customer_credit_table, Hf. simpl.
  rewrite (decide_True (P := storable cl)) by done.
  rewrite update_where_key, Hf by done. simpl. split; [done|].
  (* the keys are closed strings: both maps evaluate to the same trie *)
  reflexivity.
Qed.

Lemma update_then_search_witness :
  ∃ d, result_of (search_customer "C001") two_customers = Return d ∧
       result_of (search_customer "C001")
                 (world_after (update_customer_credit "C001" 50) two_customers)
       = Return (<["credit_limit" := VNum 50]> d).
Proof.
  apply (update_then_search two_customers); by_compute.
Defined.

(** With unique ids, [update_customer_credit] leaves the answer of
    [list_active_customers] as it was: no status changes. *)
Theorem update_customer_credit_keeps_active (w : World) (cid : string) (cl : Z) :
  NoDup (primary_keys (table w)) →
  result_of list_active_customers (world_after (update_customer_credit cid cl) w)
  = result_of list_active_customers w.
Proof.
  intros Hnd. unfold result_of. rewrite !list_active_customers_run. simpl.
  rewrite update_customer_credit_table.
  destruct (head _) as [c|] eqn:Hc; [|done]. case_decide; [|done].
  rewrite update_unique_rows by done. by rewrite update_own_status.
Qed.

Lemma update_customer_credit_keeps_active_witness :
  result_of list_active_customers
            (world_after (update_customer_credit "C001" 50) two_customers)
  = result_of list_active_customers two_customers.
Proof.
  apply (update_customer_credit_keeps_active two_customers). by_compute.
Defined.

(** ** Deleting and counting *)

Lemma delete_unique_rows (rows : list Customer) (c : Customer) (st : string) :
  NoDup (primary_keys rows) → c ∈ rows →
  length (filter (λ r, status r = st) rows)
  = length (filter (λ r, status r = st)
              (filter (λ r, customer_id r ≠ customer_id c) rows))
    + (if decide (status c = st) then 1 else 0) ∧
  length rows = S (length (filter (λ r, customer_id r ≠ customer_id c) rows)).
Proof.
  induction rows as [|r rows IH]; intros Hnd Hc; [by inversion Hc|].
  unfold primary_keys in Hnd. rewrite fmap_cons in Hnd.
  apply NoDup_cons in Hnd as [Hr Hnd].
  apply elem_of_cons in Hc as [->|Hc].
  - rewrite (filter_cons (λ r0, customer_id r0 ≠ customer_id r)).
    rewrite decide_False by auto.
    rewrite where_other_absent by done.
    split; [|done]. rewrite filter_cons.
    destruct (decide (status r = st)); simpl; lia.
  - destruct (IH Hnd Hc) as [IH1 IH2].
    rewrite (filter_cons (λ r0, customer_id r0 ≠ customer_id c)).
    rewrite decide_True.
    + rewrite !filter_cons. split; [|simpl; lia].
      destruct (decide (status r = st)); simpl; lia.
    + intros Heq. apply Hr. rewrite Heq. by apply key_of_row.
Qed.

(** With unique ids, deleting a record removes exactly one row, and the
    answer of [list_active_customers] goes down by one when the record's
    status was "Active" and stays the same otherwise. *)
Theorem delete_customer_active_count (w : World) (c : Customer) :
  NoDup (primary_keys (table w)) → c ∈ table w →
  length (table w)
  = S (length (table (world_after (delete_customer (customer_id c)) w))) ∧
  ∃ n, result_of list_active_customers
                 (world_after (delete_customer (customer_id c)) w)
       = Return n ∧
       result_of list_active_customers w
       = Return (if decide (status c = "Active") then S n else n).
Proof.
  intros Hnd Hc.
  destruct (delete_unique_rows _ _ "Active" Hnd Hc) as [Hcount Hlen].
  rewrite delete_customer_table. split; [done|].
  eexists. unfold result_of. rewrite !list_active_customers_run. simpl.
  rewrite delete_customer_table. split; [done|].
  f_equal. rewrite Hcount. case_decide; lia.
Qed.

Lemma delete_customer_active_count_witness :
  length (table two_customers)
  = S (length (table (world_after (delete_customer "C001") two_customers))) ∧
  ∃ n, result_of list_active_customers
                 (world_after (delete_customer "C001") two_customers)
       = Return n ∧
       result_of list_active_customers two_customers = Return (S n).
Proof.
  apply (delete_customer_active_count two_customers alice); by_compute.
Defined.

(** ** What a call can let out or raise *)

Lemma emitted_run {A} (c : M A) (w : World) (r : result A) (rows : list Customer)
    (evs : list event) :
  c w = (r, mkWorld rows (trace w ++ evs)) → emitted c w = evs.
Proof.
  intros Hrun. unfold emitted, world_after. rewrite Hrun. simpl.
  apply drop_app_length.
Qed.

Lemma emitted_nothing {A} (c : M A) (w : World) (r : result A) (rows : list Customer) :
  c w = (r, mkWorld rows (trace w)) → emitted c w = [].
Proof.
  intros Hrun. apply (emitted_run c w r rows). by rewrite app_nil_r.
Qed.

(** A warning comes from [delete_customer] on an id that no record has, and
    from nowhere else: no other call of the interface lets one out. *)
Theorem warning_only_from_delete (o : op) (w : World) (ev : event) :
  ev ∈ emitted (run_op o) w → is_warning ev = true →
  ∃ cid, o = OpDelete cid ∧ cid ∉ primary_keys (table w).
Proof.
  destruct o as [cid nm ln addr ph em st cl|cid|cid|cid cl|]; simpl.
  - destruct (decide (storable cl)) as [Hst|Hst].
    + destruct (decide (cid ∈ primary_keys (table w))) as [Hin|Habs].
      * rewrite (emitted_run _ _ _ _ _
                   (add_customer_duplicate w cid nm ln addr ph em st cl Hst Hin)).
        intros [->| ->%list_elem_of_singleton]%elem_of_cons; done.
      * rewrite (emitted_run _ _ _ _ _
                   (add_customer_fresh w cid nm ln addr ph em st cl Hst Habs)).
        intros ->%list_elem_of_singleton; done.
    + rewrite (emitted_nothing _ _ (Raise (OverflowError int_too_large)) (table w)).
      * by intros ?%elem_of_nil.
      * rewrite add_customer_overflow by done. by destruct w.
  - rewrite (emitted_nothing _ _ (Return ()) (table w)).
    + by intros ?%elem_of_nil.
    + run_monad. rewrite search_customer_run. by destruct w.
  - destruct (decide (cid ∈ primary_keys (table w))) as [Hin|Habs].
    + rewrite (emitted_nothing _ _ _ _ (delete_customer_present w cid Hin)).
      by intros ?%elem_of_nil.
    + intros _ _. by exists cid.
  - destruct (decide (cid ∈ primary_keys (table w))) as [Hin|Habs].
    + apply where_key_present in Hin as (c & rest & Hf).
      assert (head (filter (λ r, customer_id r = cid) (table w)) = Some c)
        as Hc by (by rewrite Hf).
      destruct (decide (storable cl)) as [Hst|Hst].
      * rewrite (emitted_run _ _ _ _ _
                   (update_customer_credit_present w cid cl c Hst Hc)).
        intros ->%list_elem_of_singleton; done.
      * rewrite (emitted_run _ _ _ _ _
                   (update_customer_credit_overflow w cid cl c Hst Hc)).
        intros ->%list_elem_of_singleton; done.
    + rewrite (emitted_nothing _ _ (Raise ValueError) (table w)).
      * by intros ?%elem_of_nil.
      * rewrite update_customer_credit_absent by done. by destruct w.
  - rewrite (emitted_run _ w (Return ()) (table w)
               [Logged INFO "Number of active customers: %s"
                  (VNum (Z.of_nat (length (filter (λ r, status r = "Active")
                                                  (table w)))))]).
    + intros ->%list_elem_of_singleton; done.
    + done.
Qed.

Lemma warning_only_from_delete_witness :
  ∃ cid, OpDelete "C009" = OpDelete cid ∧ cid ∉ primary_keys (table two_customers).
Proof.
  apply (warning_only_from_delete (OpDelete "C009") two_customers
           (Warned "User with customer_id=C009 does not exist in the database."
                   UserWarning)).
  - by_compute.
  - reflexivity.
Defined.





(** ** Replacing a record, and what an add reports *)




